(** * SafeEmitter: a shallow embedding of [tools/eslint/lib/util/safe-emitter.js]

    The module exports a factory.  Each emitter owns one private object,
    [listeners = Object.create(null)], used as a map from event names to
    arrays of listener functions, and offers three methods closing over it:
    [on], [emit] and [eventNames].

    The embedding passes the emitter's state explicitly.  Listeners are
    JavaScript values; what a function value does when it is called is given
    by a table of listener bodies, small programs that may call back into the
    emitter, return, or throw. *)

From Stdlib Require Import ZArith NArith String Ascii List Lia.
From stdpp Require Import base tactics option relations list strings sorting.

Open Scope string_scope.
Open Scope list_scope.

(** ** JavaScript values *)

(** Functions and other objects are references: two functions with the same
    code are still two values.  [VTypeError] is the error the engine throws
    when something that is not callable gets called. *)
Inductive value : Type :=
| VUndefined
| VNull
| VBool (b : bool)
| VNumber (n : Z)
| VString (s : string)
| VObject (addr : nat)
| VFunction (addr : nat)
| VTypeError.

#[global] Instance value_eq_dec : EqDecision value.
Proof. solve_decision. Defined.

(** ** Ordinary objects with a null prototype, used as maps *)

(** The own properties of the object, in the order in which they were
    created.  With a null prototype, [k in o] and [o[k]] see own properties
    only. *)
Definition object (V : Type) : Type := list (string * V).

Module Obj.
Section Obj.
Context {V : Type}.

(** [Object.create(null)] *)
Definition create : object V := [].

(** [o[k]] *)
Fixpoint get (k : string) (o : object V) : option V :=
  match o with
  | [] => None
  | (k', v) :: o' => if decide (k = k') then Some v else get k o'
  end.

(** [k in o] *)
Definition has (k : string) (o : object V) : bool :=
  match get k o with Some _ => true | None => false end.

(** [o[k] = v] for a key that [o] does not have yet: the new property comes
    last in creation order. *)
Definition define (k : string) (v : V) (o : object V) : object V :=
  o ++ [(k, v)].

(** An in-place change of the value held under [k], as done by a method
    that mutates the object stored there. *)
Fixpoint alter (f : V → V) (k : string) (o : object V) : object V :=
  match o with
  | [] => []
  | (k', v) :: o' =>
      if decide (k = k') then (k', f v) :: o' else (k', v) :: alter f k o'
  end.

(** The property names in creation order. *)
Definition names (o : object V) : list string := o.*1.
End Obj.
End Obj.

(** *** The order of [Object.keys] *)

(** An array index is a canonical numeric string (decimal digits, no leading
    zero except for "0" itself) whose value is at most 2^32 - 2. *)
Definition digit_of (c : ascii) : option N :=
  let n := N_of_ascii c in
  if ((48 <=? n) && (n <=? 57))%N then Some (n - 48)%N else None.

Fixpoint parse_digits (acc : N) (s : string) : option N :=
  match s with
  | EmptyString => Some acc
  | String c s' =>
      match digit_of c with
      | Some d => parse_digits (10 * acc + d)%N s'
      | None => None
      end
  end.

Definition array_index (s : string) : option N :=
  match s with
  | EmptyString => None
  | String c s' =>
      match digit_of c, s' with
      | None, _ => None
      | Some 0%N, EmptyString => Some 0%N
      | Some 0%N, String _ _ => None
      | Some _, _ =>
          match parse_digits 0 s with
          | Some n => if (n <=? 4294967294)%N then Some n else None
          | None => None
          end
      end
  end.

Definition is_array_index (s : string) : Prop := is_Some (array_index s).

Definition index_le (x y : string) : Prop :=
  (default 0 (array_index x) ≤ default 0 (array_index y))%N.

#[global] Instance index_le_dec : RelDecision index_le.
Proof. intros x y. unfold index_le. apply _. Defined.

(** [Object.keys(o)]: the own property names that are array indices, in
    ascending numeric order, then the other names in creation order. *)
Definition Object_keys {V : Type} (o : object V) : list string :=
  merge_sort index_le (filter is_array_index (Obj.names o))
  ++ filter (λ k, ¬ is_array_index k) (Obj.names o).

(** ** The emitter and its surroundings *)

(** One invocation of a listener: the function called, the [this] value it
    was called with, and the argument list. *)
Record call : Type := Call {
  callee : value;
  this_arg : value;
  arguments : list value
}.

#[global] Instance call_eq_dec : EqDecision call.
Proof. solve_decision. Defined.

(** [listeners] is the emitter's private object.  The array stored under an
    event name is created by the first registration for that name and is
    never replaced afterwards, only pushed to, so the array reached from the
    name is at all times the one array object of that name.
    [calls] is the history of listener invocations, oldest first. *)
Record world : Type := World {
  listeners : object (list value);
  calls : list call
}.

(** [module.exports()]: a new emitter, before anything was called. *)
Definition fresh : world := World Obj.create [].

Definition record_call (c : call) (w : world) : world :=
  World (listeners w) (calls w ++ [c]).

(** [on(eventName, listener)] *)
Definition on (eventName : string) (listener : value) (w : world) : world :=
  if Obj.has eventName (listeners w) then
    World (Obj.alter (λ arr, arr ++ [listener]) eventName (listeners w)) (calls w)
  else
    World (Obj.define eventName [listener] (listeners w)) (calls w).

(** [eventNames()]: the result, and the state it leaves. *)
Definition eventNames (w : world) : list string * world :=
  (Object_keys (listeners w), w).

(** The listeners registered for a name, [[]] when the name is not a key. *)
Definition listeners_of (eventName : string) (w : world) : list value :=
  default [] (Obj.get eventName (listeners w)).

(** *** Listener bodies *)

(** What the body of a function does when it runs, as far as the emitter is
    concerned: it may call the emitter's three methods any number of times,
    and it ends by returning or by throwing.  The continuation of [CallEmit]
    receives [None] when the nested [emit] returned and [Some v] when it
    threw [v], so a body can catch the error or let it pass. *)
Inductive prog : Type :=
| Return
| Throw (v : value)
| CallOn (eventName : string) (listener : value) (k : prog)
| CallEmit (eventName : string) (args : list value) (k : option value → prog)
| CallEventNames (k : list string → prog).

(** How a call ended.  [OutOfFuel]: the nesting of [emit] calls went deeper
    than the fuel allows. *)
Inductive outcome : Type :=
| Normal (w : world)
| Thrown (v : value) (w : world)
| OutOfFuel.

Definition final (o : outcome) : option world :=
  match o with
  | Normal w | Thrown _ w => Some w
  | OutOfFuel => None
  end.

Fixpoint exec (emit : string → list value → world → outcome)
    (p : prog) (w : world) : outcome :=
  match p with
  | Return => Normal w
  | Throw v => Thrown v w
  | CallOn e l k => exec emit k (on e l w)
  | CallEmit e args k =>
      match emit e args w with
      | Normal w' => exec emit (k None) w'
      | Thrown v w' => exec emit (k (Some v)) w'
      | OutOfFuel => OutOfFuel
      end
  | CallEventNames k =>
      let '(names, w') := eventNames w in exec emit (k names) w'
  end.

(** [arr.forEach(cb)] on the array stored under [eventName].  The length is
    read once, before the loop; [n] counts the iterations that remain and [k]
    is the current index.  Each iteration reads slot [k] of the array as it is
    at that moment, skips a missing slot, and stops at the first callback that
    does not return. *)
Fixpoint forEach_from (cb : value → world → outcome) (eventName : string)
    (k n : nat) (w : world) : outcome :=
  match n with
  | 0 => Normal w
  | S n' =>
      match Obj.get eventName (listeners w) ≫= (.!! k) with
      | Some x =>
          match cb x w with
          | Normal w' => forEach_from cb eventName (S k) n' w'
          | o => o
          end
      | None => forEach_from cb eventName (S k) n' w
      end
  end.

(** Binding of the parameters [a], [b], [c] of [emit]: a parameter with no
    argument is [undefined], arguments past the third are dropped. *)
Definition bind3 (args : list value) : list value :=
  [nth 0 args VUndefined; nth 1 args VUndefined; nth 2 args VUndefined].

Section Emitter.
(** [code n this args]: the body of function object [n], called with the
    given [this] value and arguments. *)
Variable code : nat → value → list value → prog.

(** The call [f(args...)] with the given [this] value. *)
Definition invoke (emit : string → list value → world → outcome)
    (f this : value) (args : list value) (w : world) : outcome :=
  match f with
  | VFunction n => exec emit (code n this args) (record_call (Call f this args) w)
  | _ => Thrown VTypeError w
  end.

(** [emit(eventName, a, b, c)], called with the argument list [args] after
    the event name.  The plain call [listener(a, b, c)] passes no receiver:
    the [this] value of the call is [undefined]. *)
Fixpoint emit (fuel : nat) (eventName : string) (args : list value)
    (w : world) : outcome :=
  match fuel with
  | 0 => OutOfFuel
  | S fuel' =>
      match Obj.get eventName (listeners w) with
      | Some arr =>
          forEach_from
            (λ listener, invoke (emit fuel') listener VUndefined (bind3 args))
            eventName 0 (length arr) w
      | None => Normal w
      end
  end.

(** One call of a method of the emitter by its holder.  A call of [emit]
    that ends by throwing is a step too: the caller may catch the error and
    go on using the emitter. *)
Inductive step : world → world → Prop :=
| step_on e l w : step w (on e l w)
| step_emit fuel e args w w' :
    final (emit fuel e args w) = Some w' → step w w'
| step_eventNames w : step w (eventNames w).2.

(** The states an emitter can be in. *)
Definition reachable (w : world) : Prop := rtc step fresh w.
End Emitter.

(** Registrations made one after the other. *)
Definition register_all (regs : list (string * value)) (w : world) : world :=
  foldl (λ w r, on r.1 r.2 w) w regs.

(** ** Well-behaved listener bodies *)

(** [finishes p r]: the body [p] never calls [emit], and on every path it ends
    by returning ([r = None]) or by throwing [v] ([r = Some v]).  It may
    register listeners and read the event names on its way. *)
Inductive finishes : prog → option value → Prop :=
| finishes_Return : finishes Return None
| finishes_Throw v : finishes (Throw v) (Some v)
| finishes_CallOn e l k r : finishes k r → finishes (CallOn e l k) r
| finishes_CallEventNames k r :
    (∀ names, finishes (k names) r) → finishes (CallEventNames k) r.

(** A listener that is a function and whose body, called without receiver on
    [args], returns without emitting. *)
Definition returns (code : nat → value → list value → prog)
    (args : list value) (f : value) : Prop :=
  ∃ n, f = VFunction n ∧ finishes (code n VUndefined args) None.

(** A listener that is a function and whose body throws [v]. *)
Definition throws (code : nat → value → list value → prog)
    (args : list value) (v : value) (f : value) : Prop :=
  ∃ n, f = VFunction n ∧ finishes (code n VUndefined args) (Some v).

(** [registers e g p]: on every path, the body [p] calls [on(e, g)]. *)
Inductive registers (e : string) (g : value) : prog → Prop :=
| registers_here k : registers e g (CallOn e g k)
| registers_CallOn e' l k : registers e g k → registers e g (CallOn e' l k)
| registers_CallEventNames k :
    (∀ names, registers e g (k names)) → registers e g (CallEventNames k).

(** ** How the registry grows *)

(** [extends r r']: every key of [r] is a key of [r'] at the same place in
    creation order, and the array under it has its old elements at their old
    places, followed by whatever was pushed since. *)
Definition extends (r r' : object (list value)) : Prop :=
  (∃ new, Obj.names r' = Obj.names r ++ new) ∧
  (∀ e arr, Obj.get e r = Some arr → ∃ added, Obj.get e r' = Some (arr ++ added)).

(** Every key holds at least one listener, and no key occurs twice. *)
Definition well_formed (r : object (list value)) : Prop :=
  NoDup (Obj.names r) ∧ ∀ e arr, Obj.get e r = Some arr → arr ≠ [].

(** The first occurrence of each name, in order. *)
Fixpoint first_occurrences (names : list string) : list string :=
  match names with
  | [] => []
  | x :: l => x :: filter (λ y, y ≠ x) (first_occurrences l)
  end.

(** The listeners [fs] called one after the other, each without receiver and
    with the arguments [args]. *)
Definition invocations (args : list value) (fs : list value) : list call :=
  (λ f, Call f VUndefined args) <$> fs.

(** ** Vocabulary for the statements *)

(** The listeners that a sequence of registrations adds under one name. *)
Definition registered (e : string) (regs : list (string * value)) : list value :=
  (filter (λ r, r.1 = e) regs).*2.

(** The invocations made since an earlier state. *)
Definition new_calls (w w' : world) : list call :=
  drop (length (calls w)) (calls w').

(** How often a listener was called, and how often it is registered. *)
Definition times_invoked (f : value) (cs : list call) : nat :=
  length (filter (λ c, callee c = f) cs).

Definition times_registered (f : value) (e : string) (w : world) : nat :=
  length (filter (λ g, g = f) (listeners_of e w)).

(** [kept P o]: the state in which a call ended, if it ended, satisfies [P]. *)
Definition kept (P : world → Prop) (o : outcome) : Prop :=
  match final o with Some w => P w | None => True end.

(** The outcome of a body that returned ([None]) or threw ([Some v]). *)
Definition ended (r : option value) (w : world) : outcome :=
  match r with None => Normal w | Some v => Thrown v w end.

(** ** An emitter with a few listeners, for the examples *)

Module Demo.
Definition spy1 : value := VFunction 0.
Definition spy2 : value := VFunction 1.
Definition faulty : value := VFunction 2.
Definition recruiter : value := VFunction 3.
Definition echo : value := VFunction 4.
Definition nodeX : value := VObject 7.

(** [spy1] and [spy2] just return; [faulty] throws; [recruiter] registers
    [spy2] for "Program" and returns; [echo] emits "Program:exit" with the
    arguments it got and lets an error of that call pass. *)
Definition code (n : nat) (this : value) (args : list value) : prog :=
  match n with
  | 2 => Throw (VString "boom")
  | 3 => CallOn "Program" spy2 Return
  | 4 => CallEmit "Program:exit" args
           (λ r, match r with Some v => Throw v | None => Return end)
  | _ => Return
  end.

(** An emitter on which emitting "Program" makes [echo] emit "Program:exit",
    where [faulty] throws; and the state this ends in. *)
Definition nested : world :=
  register_all [("Program", echo); ("Program:exit", spy1);
                ("Program:exit", faulty); ("Program", spy2)] fresh.

Definition nested_after : world :=
  World [("Program", [echo; spy2]); ("Program:exit", [spy1; faulty])]
        [Call echo VUndefined [nodeX; VUndefined; VUndefined];
         Call spy1 VUndefined [nodeX; VUndefined; VUndefined];
         Call faulty VUndefined [nodeX; VUndefined; VUndefined]].

(** An emitter on which [recruiter] enlists [spy2] during the emit, the state
    after emitting "Program" on it, and an emitter that has another event
    besides. *)
Definition hiring : world :=
  register_all [("Program", recruiter); ("Program", spy1)] fresh.

Definition hiring_after : world :=
  World [("Program", [recruiter; spy1; spy2])]
        [Call recruiter VUndefined [nodeX; VUndefined; VUndefined];
         Call spy1 VUndefined [nodeX; VUndefined; VUndefined]].

Definition hiring_and_more : world :=
  register_all [("Token", faulty); ("Program", recruiter); ("Program", spy1)] fresh.
End Demo.

(** ** More vocabulary: listeners of other kinds *)

(** [inert p]: the body [p] never calls [on].  It may emit, read the event
    names, return or throw. *)
Inductive inert : prog → Prop :=
| inert_Return : inert Return
| inert_Throw v : inert (Throw v)
| inert_CallEmit e args k : (∀ r, inert (k r)) → inert (CallEmit e args k)
| inert_CallEventNames k : (∀ names, inert (k names)) → inert (CallEventNames k).

(** No function held by the registry ever calls [on]. *)
Definition inert_listeners (code : nat → value → list value → prog)
    (r : object (list value)) : Prop :=
  Forall (λ kv, Forall (λ f, ∀ n, f = VFunction n →
                          ∀ this args, inert (code n this args)) kv.2) r.


Definition is_callable (v : value) : bool :=
  match v with VFunction _ => true | _ => false end.

(** ** The object that the factory returns *)

(** A data property with its attributes, and an ordinary object: its own
    properties and whether properties may be added. *)
Record property (V : Type) : Type := Property {
  p_value : V;
  writable : bool;
  enumerable : bool;
  configurable : bool
}.
Arguments Property {V} _ _ _ _.
Arguments p_value {V} _.
Arguments writable {V} _.
Arguments enumerable {V} _.
Arguments configurable {V} _.

Record js_object (V : Type) : Type := JsObject {
  own : object (property V);
  extensible : bool
}.
Arguments JsObject {V} _ _.
Arguments own {V} _.
Arguments extensible {V} _.

(** [{ k1: v1, k2: v2, ... }] with names that differ from each other. *)
Definition literal {V} (kvs : list (string * V)) : js_object V :=
  JsObject ((λ kv, (kv.1, Property kv.2 true true true)) <$> kvs) true.

(** [Object.freeze(o)] *)
Definition Object_freeze {V} (o : js_object V) : js_object V :=
  JsObject ((λ kp, (kp.1, Property (p_value kp.2) false (enumerable kp.2) false))
              <$> own o)
           false.

(** What a holder of an object can try on it: [o[k] = v], [delete o[k]], and
    [Object.defineProperty(o, k, p)] with a full data descriptor [p]. *)
Inductive mutation (V : Type) : Type :=
| Assign (k : string) (v : V)
| Delete (k : string)
| DefineProperty (k : string) (p : property V).
Arguments Assign {V} _ _.
Arguments Delete {V} _.
Arguments DefineProperty {V} _ _.

(** The object after the operation, [None] when the operation is refused (a
    [TypeError] in strict code, nothing at all in sloppy code). *)
Definition attempt {V} `{EqDecision V} (m : mutation V) (o : js_object V) :
    option (js_object V) :=
  match m with
  | Assign k v =>
      match Obj.get k (own o) with
      | Some p =>
          if writable p then
            Some (JsObject
                    (Obj.alter (λ p, Property v (writable p) (enumerable p) (configurable p))
                       k (own o))
                    (extensible o))
          else None
      | None =>
          if extensible o then
            Some (JsObject (Obj.define k (Property v true true true) (own o)) true)
          else None
      end
  | Delete k =>
      match Obj.get k (own o) with
      | Some p =>
          if configurable p then
            Some (JsObject (filter (λ kp, kp.1 ≠ k) (own o)) (extensible o))
          else None
      | None => Some o
      end
  | DefineProperty k p =>
      match Obj.get k (own o) with
      | Some cur =>
          if configurable cur then
            Some (JsObject (Obj.alter (λ _, p) k (own o)) (extensible o))
          else if bool_decide (configurable p = false ∧ enumerable p = enumerable cur) then
            if writable cur then
              Some (JsObject (Obj.alter (λ _, p) k (own o)) (extensible o))
            else if bool_decide (writable p = false ∧ p_value p = p_value cur) then
              Some o
            else None
          else None
      | None =>
          if extensible o then Some (JsObject (Obj.define k p (own o)) true)
          else None
      end
  end.

(** The object once the operation was tried. *)
Definition after {V} `{EqDecision V} (o : js_object V) (m : mutation V) : js_object V :=
  default o (attempt m o).

Definition frozen {V} (o : js_object V) : Prop :=
  extensible o = false ∧
  Forall (λ kp, writable kp.2 = false ∧ configurable kp.2 = false) (own o).

(** The three methods, and the object [Object.freeze({ on, emit, eventNames })]
    that holds them. *)
Inductive method : Type := Method_on | Method_emit | Method_eventNames.

#[global] Instance method_eq_dec : EqDecision method.
Proof. solve_decision. Defined.

Definition SafeEmitter : js_object method :=
  Object_freeze (literal [("on", Method_on); ("emit", Method_emit);
                          ("eventNames", Method_eventNames)]).

(** ** Two more listeners for the examples *)

Module Demo2.
Definition saboteur : value := VFunction 5.

(** [saboteur] registers [Demo.spy1] for "Token" and then throws;
    [narcissus] emits "Program" whenever it is called.  The other functions
    are those of [Demo.code]. *)
Definition code (n : nat) (this : value) (args : list value) : prog :=
  match n with
  | 5 => CallOn "Token" Demo.spy1 (Throw (VString "late"))
  | 6 => CallEmit "Program" args (λ _, Return)
  | _ => Demo.code n this args
  end.

Definition sabotaged : world :=
  register_all [("Program", Demo.spy1); ("Program", saboteur);
                ("Program", Demo.spy2)] fresh.


(** An emitter on which [Demo.echo] passes "Program" on to the listener of
    "Program:exit", and the state after emitting "Program" on it. *)
Definition relay : world :=
  register_all [("Program", Demo.echo); ("Program:exit", Demo.spy1);
                ("Program", Demo.spy2)] fresh.

Definition relay_after : world :=
  World [("Program", [Demo.echo; Demo.spy2]); ("Program:exit", [Demo.spy1])]
        [Call Demo.echo VUndefined [Demo.nodeX; VUndefined; VUndefined];
         Call Demo.spy1 VUndefined [Demo.nodeX; VUndefined; VUndefined];
         Call Demo.spy2 VUndefined [Demo.nodeX; VUndefined; VUndefined]].
End Demo2.

(** * Properties *)

(** ** Objects *)

Module ObjFacts.
Section ObjFacts.
Context {V : Type}.
Implicit Types (o : object V) (k : string).

Lemma get_None k o : Obj.get k o = None ↔ k ∉ Obj.names o.
Proof.
  induction o as [|[k' v] o IH]; simpl.
  - split; [intros _; apply not_elem_of_nil | done].
  - rewrite not_elem_of_cons. destruct (decide (k = k')) as [->|Hne].
    + split; [done | intros [? _]; done].
    + rewrite IH. tauto.
Qed.

Lemma get_is_Some k o : is_Some (Obj.get k o) ↔ k ∈ Obj.names o.
Proof.
  destruct (Obj.get k o) eqn:E.
  - split; [intros _ | eauto].
    destruct (decide (k ∈ Obj.names o)) as [|Hn]; [done|].
    apply get_None in Hn. congruence.
  - split; [intros [? ?]; done|]. intros Hin. apply get_None in E. done.
Qed.

Lemma has_true k o : Obj.has k o = true ↔ k ∈ Obj.names o.
Proof.
  unfold Obj.has. rewrite <- get_is_Some.
  destruct (Obj.get k o); split; eauto; try done; intros [? ?]; done.
Qed.

Lemma get_define k k' v o :
  Obj.get k (Obj.define k' v o) =
    match Obj.get k o with
    | Some x => Some x
    | None => if decide (k = k') then Some v else None
    end.
Proof.
  unfold Obj.define. induction o as [|[k2 v2] o IH]; simpl; [done|].
  destruct (decide (k = k2)); done.
Qed.

Lemma get_alter f k k' o :
  Obj.get k (Obj.alter f k' o) =
    if decide (k = k') then f <$> Obj.get k o else Obj.get k o.
Proof.
  induction o as [|[k2 v2] o IH]; simpl.
  - by destruct (decide (k = k')).
  - destruct (decide (k' = k2)) as [->|Hne2]; simpl;
      destruct (decide (k = k2)) as [->|Hne]; simpl;
      repeat case_decide; simplify_eq; done.
Qed.

Lemma names_alter f k o : Obj.names (Obj.alter f k o) = Obj.names o.
Proof.
  unfold Obj.names. induction o as [|[k2 v2] o IH]; simpl; [done|].
  destruct (decide (k = k2)); simpl; [done | by f_equal].
Qed.

Lemma names_define k v o : Obj.names (Obj.define k v o) = Obj.names o ++ [k].
Proof. unfold Obj.names, Obj.define. by rewrite fmap_app. Qed.
End ObjFacts.
End ObjFacts.

(** ** Registration *)

Lemma calls_on e l w : calls (on e l w) = calls w.
Proof. unfold on. by destruct (Obj.has e (listeners w)). Qed.

Lemma get_on e' e l w :
  Obj.get e' (listeners (on e l w)) =
    if decide (e' = e) then Some (listeners_of e w ++ [l])
    else Obj.get e' (listeners w).
Proof.
  unfold on, listeners_of, Obj.has.
  destruct (Obj.get e (listeners w)) as [arr|] eqn:E; simpl.
  - rewrite ObjFacts.get_alter. case_decide; [subst; by rewrite E | done].
  - rewrite ObjFacts.get_define. case_decide; [subst; by rewrite E|].
    by destruct (Obj.get e' (listeners w)).
Qed.

Lemma get_listeners_of e w arr :
  Obj.get e (listeners w) = Some arr → listeners_of e w = arr.
Proof. unfold listeners_of. by intros ->. Qed.

Lemma listeners_of_on e' e l w :
  listeners_of e' (on e l w) =
    if decide (e' = e) then listeners_of e w ++ [l] else listeners_of e' w.
Proof. unfold listeners_of at 1. rewrite get_on. by case_decide. Qed.

Lemma names_on e l w :
  Obj.names (listeners (on e l w)) =
    if Obj.has e (listeners w) then Obj.names (listeners w)
    else Obj.names (listeners w) ++ [e].
Proof.
  unfold on. destruct (Obj.has e (listeners w)); simpl.
  - apply ObjFacts.names_alter.
  - apply ObjFacts.names_define.
Qed.

#[global] Instance extends_refl : Reflexive extends.
Proof.
  intros r. split.
  - exists []. by rewrite app_nil_r.
  - intros e arr H. exists []. by rewrite app_nil_r.
Qed.

#[global] Instance extends_trans : Transitive extends.
Proof.
  intros r1 r2 r3 [[n1 Hn1] H1] [[n2 Hn2] H2]. split.
  - exists (n1 ++ n2). by rewrite Hn2, Hn1, app_assoc.
  - intros e arr H. destruct (H1 _ _ H) as [a1 Ha1].
    destruct (H2 _ _ Ha1) as [a2 Ha2]. exists (a1 ++ a2).
    by rewrite Ha2, app_assoc.
Qed.

Lemma on_extends e l w : extends (listeners w) (listeners (on e l w)).
Proof.
  split.
  - rewrite names_on. destruct (Obj.has e (listeners w)).
    + exists []. by rewrite app_nil_r.
    + by exists [e].
  - intros e' arr H. rewrite get_on. case_decide as Heq.
    + subst. exists [l]. unfold listeners_of. by rewrite H.
    + exists []. by rewrite app_nil_r.
Qed.

Lemma on_well_formed e l w :
  well_formed (listeners w) → well_formed (listeners (on e l w)).
Proof.
  intros [Hnd Hne]. split.
  - rewrite names_on. destruct (Obj.has e (listeners w)) eqn:E; [done|].
    apply NoDup_app. split_and!; [done| |apply NoDup_singleton].
    intros x Hx Hx'. apply list_elem_of_singleton in Hx'. subst.
    apply ObjFacts.has_true in Hx. congruence.
  - intros e' arr. rewrite get_on. case_decide; [|apply Hne].
    intros [= <-]. by destruct (listeners_of e w).
Qed.

Lemma fresh_well_formed : well_formed (listeners fresh).
Proof. split; [apply NoDup_nil_2 | done]. Qed.

(** ** What every run of [emit] preserves *)

(** A property of the emitter and its history that survives a registration
    and the record of a receiver-less call survives [emit], however the
    listeners behave and however the call ends. *)
Section Preservation.
Variable code : nat → value → list value → prog.
Variable P : world → Prop.
Hypothesis P_on : ∀ e l w, P w → P (on e l w).
Hypothesis P_call :
  ∀ f args w, P w → P (record_call (Call f VUndefined (bind3 args)) w).

Lemma exec_kept emit_rec :
  (∀ e args w, P w → kept P (emit_rec e args w)) →
  ∀ p w, P w → kept P (exec emit_rec p w).
Proof.
  intros Hrec p. induction p as [|v|e l k IH|e args k IH|k IH]; intros w Hw; simpl.
  - done.
  - done.
  - apply IH, P_on, Hw.
  - specialize (Hrec e args w Hw). unfold kept in Hrec.
    destruct (emit_rec e args w) as [w'|v w'|]; simpl in Hrec; [by apply IH..|done].
  - by apply IH.
Qed.

Lemma forEach_kept cb e :
  (∀ x w, P w → kept P (cb x w)) →
  ∀ n k w, P w → kept P (forEach_from cb e k n w).
Proof.
  intros Hcb n. induction n as [|n IH]; intros k w Hw; simpl; [done|].
  destruct (Obj.get e (listeners w) ≫= (.!! k)) as [x|]; [|by apply IH].
  specialize (Hcb x w Hw). unfold kept in Hcb.
  destruct (cb x w) as [w'|v w'|]; simpl in Hcb; [by apply IH|done..].
Qed.

Lemma emit_kept fuel : ∀ e args w, P w → kept P (emit code fuel e args w).
Proof.
  induction fuel as [|fuel IH]; intros e args w Hw; simpl; [done|].
  destruct (Obj.get e (listeners w)) as [arr|]; [|done].
  apply forEach_kept; [|done].
  intros x w1 Hw1. unfold invoke.
  destruct x; try done. by apply exec_kept, P_call.
Qed.

Lemma emit_final_kept fuel e args w w' :
  P w → final (emit code fuel e args w) = Some w' → P w'.
Proof.
  intros Hw Hf. pose proof (emit_kept fuel e args w Hw) as H.
  unfold kept in H. by rewrite Hf in H.
Qed.
End Preservation.

(** ** Listeners that do not emit *)

Section Quiet.
Variable code : nat → value → list value → prog.
Variable emit_rec : string → list value → world → outcome.

Lemma exec_finishes p r :
  finishes p r →
  ∀ w, ∃ w', exec emit_rec p w = ended r w' ∧ calls w' = calls w ∧
             extends (listeners w) (listeners w').
Proof.
  induction 1 as [|v|e l k r _ IH|k r _ IH]; intros w; simpl.
  - by exists w.
  - by exists w.
  - destruct (IH (on e l w)) as (w' & -> & Hc & Hx). exists w'.
    split_and!; [done|by rewrite Hc, calls_on|].
    etrans; [apply on_extends|done].
  - apply IH.
Qed.

Lemma exec_registers e g p :
  registers e g p → finishes p None →
  ∀ w arr, Obj.get e (listeners w) = Some arr →
    ∃ w' added, exec emit_rec p w = Normal w' ∧ calls w' = calls w ∧
                Obj.get e (listeners w') = Some (arr ++ added) ∧ g ∈ added.
Proof.
  induction 1 as [k|e' l k _ IH|k _ IH]; intros Hfin w arr Hget;
    inversion Hfin as [| |e1 l1 k1 r1 Hk|k1 r1 Hk]; subst; simpl.
  - destruct (exec_finishes k None Hk (on e g w)) as (w' & Hrun & Hc & [_ Hx]).
    destruct (Hx e (arr ++ [g])) as [more Hget'].
    { rewrite get_on, decide_True by done.
      by rewrite (get_listeners_of _ _ _ Hget). }
    exists w', ([g] ++ more). split_and!; [done|by rewrite Hc, calls_on| |].
    + rewrite Hget'. by rewrite <- app_assoc.
    + rewrite elem_of_app, list_elem_of_singleton. tauto.
  - destruct (on_extends e' l w) as [_ Hx].
    destruct (Hx _ _ Hget) as [a1 Hget1].
    destruct (IH Hk (on e' l w) (arr ++ a1) Hget1)
      as (w' & a2 & Hrun & Hc & Hget' & Hin).
    exists w', (a1 ++ a2). split_and!; [done|by rewrite Hc, calls_on| |].
    + rewrite Hget'. by rewrite <- app_assoc.
    + rewrite elem_of_app. tauto.
  - by apply IH.
Qed.

Lemma invoke_returns args f w :
  returns code args f →
  ∃ w', invoke code emit_rec f VUndefined args w = Normal w' ∧
        calls w' = calls w ++ [Call f VUndefined args] ∧
        extends (listeners w) (listeners w').
Proof.
  intros (n & -> & Hfin). simpl.
  destruct (exec_finishes _ _ Hfin (record_call (Call (VFunction n) VUndefined args) w))
    as (w' & -> & Hc & Hx).
  by exists w'.
Qed.

Lemma invoke_throws args v f w :
  throws code args v f →
  ∃ w', invoke code emit_rec f VUndefined args w = Thrown v w' ∧
        calls w' = calls w ++ [Call f VUndefined args] ∧
        extends (listeners w) (listeners w').
Proof.
  intros (n & -> & Hfin). simpl.
  destruct (exec_finishes _ _ Hfin (record_call (Call (VFunction n) VUndefined args) w))
    as (w' & -> & Hc & Hx).
  by exists w'.
Qed.
End Quiet.

(** ** The loop of [forEach] *)

Lemma forEach_split cb e n m : ∀ k w,
  forEach_from cb e k (n + m) w =
    match forEach_from cb e k n w with
    | Normal w' => forEach_from cb e (k + n) m w'
    | o => o
    end.
Proof.
  induction n as [|n IH]; intros k w; simpl.
  - by rewrite Nat.add_0_r.
  - destruct (Obj.get e (listeners w) ≫= (.!! k)) as [x|].
    + destruct (cb x w) as [w'|v w'|]; [|done..].
      rewrite IH. by replace (S k + n) with (k + S n) by lia.
    + rewrite IH. by replace (S k + n) with (k + S n) by lia.
Qed.

Section Loop.
Variable code : nat → value → list value → prog.
Variable emit_rec : string → list value → world → outcome.
Variable args : list value.

(** The loop over a stretch [todo] of listeners that all return: each is
    called once, in order; the array keeps what it had and may have grown at
    its end. *)
Lemma forEach_returns e todo : ∀ before after w,
  Obj.get e (listeners w) = Some (before ++ todo ++ after) →
  Forall (returns code args) todo →
  ∃ w' added,
    forEach_from (λ listener, invoke code emit_rec listener VUndefined args)
      e (length before) (length todo) w = Normal w' ∧
    calls w' = calls w ++ invocations args todo ∧
    Obj.get e (listeners w') = Some (before ++ todo ++ after ++ added) ∧
    extends (listeners w) (listeners w').
Proof.
  induction todo as [|f todo IH]; intros before after w Hget Hall.
  - exists w, []. simpl. rewrite !app_nil_r. by split_and!.
  - apply Forall_cons in Hall as [Hf Hall]. simpl.
    rewrite Hget. simpl.
    rewrite (list_lookup_middle before (todo ++ after) f (length before) eq_refl).
    destruct (invoke_returns code emit_rec args f w Hf) as (w1 & Hinv & Hc1 & Hx1).
    simpl. rewrite Hinv.
    destruct Hx1 as [Hn1 Hg1]. destruct (Hg1 _ _ Hget) as [added1 Hget1].
    destruct (IH (before ++ [f]) (after ++ added1) w1) as (w' & added & Hrun & Hc & Hget' & Hx);
      [|done|].
    { rewrite Hget1. f_equal. by rewrite <- !app_assoc. }
    rewrite length_app in Hrun. simpl in Hrun.
    replace (length before + 1) with (S (length before)) in Hrun by lia.
    exists w', (added1 ++ added). split_and!.
    + done.
    + rewrite Hc, Hc1. simpl. by rewrite <- app_assoc.
    + rewrite Hget'. f_equal. by rewrite <- !app_assoc.
    + etrans; [|done]. by split.
Qed.
End Loop.

(** ** [emit] over listeners that do not emit *)

Section EmitQuiet.
Variable code : nat → value → list value → prog.

Lemma emit_S fuel e args w :
  emit code (S fuel) e args w =
    match Obj.get e (listeners w) with
    | Some arr =>
        forEach_from
          (λ listener, invoke code (emit code fuel) listener VUndefined (bind3 args))
          e 0 (length arr) w
    | None => Normal w
    end.
Proof. done. Qed.

Lemma emit_returns fuel e args w arr :
  Obj.get e (listeners w) = Some arr →
  Forall (returns code (bind3 args)) arr →
  ∃ w' added,
    emit code (S fuel) e args w = Normal w' ∧
    calls w' = calls w ++ invocations (bind3 args) arr ∧
    Obj.get e (listeners w') = Some (arr ++ added) ∧
    extends (listeners w) (listeners w').
Proof.
  intros Hget Hall. rewrite emit_S, Hget.
  destruct (forEach_returns code (emit code fuel) (bind3 args) e arr [] [] w)
    as (w' & added & Hrun & Hc & Hget' & Hx); [by rewrite app_nil_r|done|].
  exists w', added. by split_and!.
Qed.

Lemma emit_throws fuel e args w pre f post v :
  Obj.get e (listeners w) = Some (pre ++ f :: post) →
  Forall (returns code (bind3 args)) pre →
  throws code (bind3 args) v f →
  ∃ w',
    emit code (S fuel) e args w = Thrown v w' ∧
    calls w' = calls w ++ invocations (bind3 args) (pre ++ [f]) ∧
    extends (listeners w) (listeners w').
Proof.
  intros Hget Hpre Hf. rewrite emit_S, Hget.
  rewrite length_app. simpl length. rewrite forEach_split.
  destruct (forEach_returns code (emit code fuel) (bind3 args) e pre [] (f :: post) w)
    as (w1 & added & Hrun & Hc1 & Hget1 & Hx1); [done..|].
  simpl in Hrun, Hget1. rewrite Hrun. cbn [forEach_from Nat.add].
  rewrite Hget1. simpl.
  rewrite (list_lookup_middle pre (post ++ added) f (length pre) eq_refl).
  destruct (invoke_throws code (emit code fuel) (bind3 args) v f w1 Hf)
    as (w' & -> & Hc & Hx).
  exists w'. split_and!; [done| |by etrans].
  rewrite Hc, Hc1. unfold invocations. by rewrite fmap_app, <- app_assoc.
Qed.

Lemma emit_no_listeners fuel e args w :
  listeners_of e w = [] → emit code (S fuel) e args w = Normal w.
Proof.
  unfold listeners_of. simpl.
  destruct (Obj.get e (listeners w)) as [arr|]; simpl; [|done].
  by intros ->.
Qed.
End EmitQuiet.

(** ** Sequences of registrations *)

Lemma register_all_cons e l regs w :
  register_all ((e, l) :: regs) w = register_all regs (on e l w).
Proof. done. Qed.

Lemma calls_register_all regs : ∀ w, calls (register_all regs w) = calls w.
Proof.
  induction regs as [|[e l] regs IH]; intros w; [done|].
  by rewrite register_all_cons, IH, calls_on.
Qed.

Lemma listeners_of_register_all e regs : ∀ w,
  listeners_of e (register_all regs w) = listeners_of e w ++ registered e regs.
Proof.
  induction regs as [|[e' l] regs IH]; intros w.
  - unfold registered. simpl. by rewrite app_nil_r.
  - rewrite register_all_cons, IH, listeners_of_on.
    unfold registered. rewrite filter_cons. simpl.
    repeat case_decide; simplify_eq; simpl; [by rewrite <- app_assoc|done].
Qed.

Lemma new_calls_app w w' new : calls w' = calls w ++ new → new_calls w w' = new.
Proof. unfold new_calls. intros ->. by rewrite drop_app_length. Qed.

Lemma times_invoked_invocations f args fs :
  times_invoked f (invocations args fs) = length (filter (λ g, g = f) fs).
Proof.
  unfold times_invoked, invocations.
  induction fs as [|g fs IH]; [done|].
  rewrite fmap_cons, !filter_cons. simpl. case_decide; simpl; by rewrite IH.
Qed.

(** ** The order of the event names *)

Example array_index_examples :
  array_index "0" = Some 0%N ∧ array_index "10" = Some 10%N ∧
  array_index "4294967294" = Some 4294967294%N ∧
  array_index "4294967295" = None ∧ array_index "01" = None ∧
  array_index "1e3" = None ∧ array_index "" = None ∧
  array_index "Program" = None.
Proof. by split_and!. Qed.

Example Object_keys_example :
  Object_keys [("b", 1); ("10", 2); ("a", 3); ("9", 4); ("01", 5)]
  = ["9"; "10"; "b"; "a"; "01"].
Proof. reflexivity. Qed.

#[global] Instance index_le_trans : Transitive index_le.
Proof. intros x y z. unfold index_le. lia. Qed.

#[global] Instance index_le_total : Total index_le.
Proof. intros x y. unfold index_le. lia. Qed.

Lemma Object_keys_Permutation {V} (o : object V) : Object_keys o ≡ₚ Obj.names o.
Proof.
  unfold Object_keys. rewrite merge_sort_Permutation.
  apply filter_app_complement.
Qed.

Lemma Object_keys_no_index {V} (o : object V) :
  (∀ k, k ∈ Obj.names o → ¬ is_array_index k) → Object_keys o = Obj.names o.
Proof.
  intros Hno. unfold Object_keys.
  assert (∀ l : list string, (∀ k, k ∈ l → ¬ is_array_index k) →
            filter is_array_index l = [] ∧ filter (λ k, ¬ is_array_index k) l = l)
    as Haux.
  { induction l as [|k l IH]; intros Hl; [done|].
    rewrite !filter_cons.
    assert (¬ is_array_index k) as Hk by (apply Hl; left).
    rewrite decide_False, decide_True by done.
    destruct IH as [-> ->]; [|done]. intros k' Hk'. apply Hl. by right. }
  destruct (Haux _ Hno) as [-> ->]. done.
Qed.

(** The names that come out of a sequence of registrations, in creation
    order: each at the place of its first registration. *)
Lemma names_register_all regs : ∀ w,
  Obj.names (listeners (register_all regs w)) =
    Obj.names (listeners w) ++
    filter (λ e, e ∉ Obj.names (listeners w)) (first_occurrences regs.*1).
Proof.
  induction regs as [|[e l] regs IH]; intros w.
  - simpl. by rewrite app_nil_r.
  - rewrite register_all_cons, IH, names_on. simpl.
    rewrite filter_cons. simpl.
    destruct (Obj.has e (listeners w)) eqn:Hhas.
    + apply ObjFacts.has_true in Hhas as Hin.
      rewrite decide_False by (intros Hn; by apply Hn).
      f_equal. rewrite list_filter_filter. apply list_filter_iff.
      intros x. split; [|tauto]. intros Hx. split; [done|].
      intros ->. by apply Hx.
    + assert (e ∉ Obj.names (listeners w)) as Hnin.
      { intros Hin. apply ObjFacts.has_true in Hin. congruence. }
      rewrite decide_True by done. rewrite <- app_assoc. simpl. do 2 f_equal.
      rewrite list_filter_filter. apply list_filter_iff.
      intros x. rewrite not_elem_of_app, list_elem_of_singleton. tauto.
Qed.

(** ** Steps of the emitter *)

Section Steps.
Variable code : nat → value → list value → prog.

Lemma emit_extends fuel e args w w' :
  final (emit code fuel e args w) = Some w' →
  extends (listeners w) (listeners w').
Proof.
  apply (emit_final_kept code (λ w', extends (listeners w) (listeners w'))).
  - intros e1 l1 w1 H. etrans; [done | apply on_extends].
  - done.
  - done.
Qed.

Lemma emit_well_formed fuel e args w w' :
  well_formed (listeners w) →
  final (emit code fuel e args w) = Some w' →
  well_formed (listeners w').
Proof.
  apply (emit_final_kept code (λ w', well_formed (listeners w'))).
  - intros e1 l1 w1. apply on_well_formed.
  - done.
Qed.

Lemma step_extends w w' : step code w w' → extends (listeners w) (listeners w').
Proof.
  destruct 1 as [e l w|fuel e args w w' H|w].
  - apply on_extends.
  - by eapply emit_extends.
  - done.
Qed.

Lemma step_well_formed w w' :
  step code w w' → well_formed (listeners w) → well_formed (listeners w').
Proof.
  destruct 1 as [e l w|fuel e args w w' H|w]; intros Hwf.
  - by apply on_well_formed.
  - by eapply emit_well_formed.
  - done.
Qed.

Lemma reachable_well_formed w : reachable code w → well_formed (listeners w).
Proof.
  unfold reachable. revert w.
  apply (rtc_ind_r (λ w, well_formed (listeners w))).
  - apply fresh_well_formed.
  - intros w1 w2 _ Hstep IH. by eapply step_well_formed.
Qed.

Lemma reachable_register_all regs w :
  reachable code w → reachable code (register_all regs w).
Proof.
  revert w. induction regs as [|[e l] regs IH]; intros w Hw; [done|].
  rewrite register_all_cons. apply IH.
  eapply rtc_r; [done | constructor].
Qed.
End Steps.

(** [emit] in a state where the listeners of the event all return. *)
Lemma emit_quiet code fuel e args w :
  Forall (returns code (bind3 args)) (listeners_of e w) →
  ∃ w', emit code (S fuel) e args w = Normal w' ∧
        calls w' = calls w ++ invocations (bind3 args) (listeners_of e w) ∧
        (∃ added, listeners_of e w' = listeners_of e w ++ added) ∧
        extends (listeners w) (listeners w').
Proof.
  intros Hall. destruct (Obj.get e (listeners w)) as [arr|] eqn:Hget.
  - rewrite (get_listeners_of _ _ _ Hget) in *.
    destruct (emit_returns code fuel e args w arr Hget Hall)
      as (w' & added & Hrun & Hc & Hget' & Hx).
    exists w'. split_and!; [done..| |done].
    exists added. by apply get_listeners_of.
  - assert (listeners_of e w = []) as Hnil
      by (unfold listeners_of; by rewrite Hget).
    exists w. rewrite emit_no_listeners, Hnil by done.
    split_and!; [done|by rewrite app_nil_r|by exists []|done].
Qed.

Lemma invoke_function code emit_rec n this args w :
  invoke code emit_rec (VFunction n) this args w =
    exec emit_rec (code n this args)
      (record_call (Call (VFunction n) this args) w).
Proof. done. Qed.

(** [emit] when one of the listeners registers [g] for the event being
    emitted: [g] is pushed behind the listeners that were there, and the loop
    does not get to it. *)
Lemma emit_recruits code fuel e args w pre n post g :
  Obj.get e (listeners w) = Some (pre ++ VFunction n :: post) →
  Forall (returns code (bind3 args)) (pre ++ VFunction n :: post) →
  registers e g (code n VUndefined (bind3 args)) →
  ∃ w' added,
    emit code (S fuel) e args w = Normal w' ∧
    calls w' = calls w ++ invocations (bind3 args) (pre ++ VFunction n :: post) ∧
    Obj.get e (listeners w') = Some ((pre ++ VFunction n :: post) ++ added) ∧
    g ∈ added.
Proof.
  intros Hget Hall Hreg.
  apply Forall_app in Hall as [Hpre Hall].
  apply Forall_cons in Hall as [Hf Hpost].
  destruct Hf as (n' & [= <-] & Hfin).
  rewrite emit_S, Hget, length_app. simpl length.
  set (f := VFunction n) in *. set (a3 := bind3 args) in *.
  replace (S (length post)) with (1 + length post) by done.
  rewrite !forEach_split.
  (* the listeners before [f] *)
  destruct (forEach_returns code (emit code fuel) a3 e pre [] (f :: post) w)
    as (w1 & added1 & Hrun1 & Hc1 & Hget1 & _); [done..|].
  simpl in Hrun1, Hget1. rewrite Hrun1. clear Hrun1.
  (* [f] itself *)
  cbn [forEach_from Nat.add]. rewrite Hget1. cbn [mbind option_bind].
  rewrite (list_lookup_middle pre (post ++ added1) f (length pre) eq_refl).
  subst f. rewrite invoke_function.
  set (f := VFunction n) in *.
  destruct (exec_registers (emit code fuel) e g _ Hreg Hfin
              (record_call (Call f VUndefined a3) w1) _ Hget1)
    as (w2 & added2 & Hrun2 & Hc2 & Hget2 & Hin).
  rewrite Hrun2. clear Hrun2. simpl in Hc2.
  (* the listeners after [f] *)
  destruct (forEach_returns code (emit code fuel) a3 e post (pre ++ [f])
              (added1 ++ added2) w2)
    as (w3 & added3 & Hrun3 & Hc3 & Hget3 & _); [|done|].
  { rewrite Hget2. f_equal. by repeat (rewrite <- app_assoc; simpl). }
  rewrite length_app in Hrun3. simpl in Hrun3.
  replace (length pre + 1) with (S (length pre)) in Hrun3 by lia.
  rewrite Hrun3. clear Hrun3.
  exists w3, (added1 ++ added2 ++ added3). split_and!.
  - done.
  - rewrite Hc3, Hc2, Hc1. unfold invocations.
    rewrite fmap_app, fmap_cons. by repeat (rewrite <- app_assoc; simpl).
  - rewrite Hget3. f_equal. by repeat (rewrite <- app_assoc; simpl).
  - rewrite !elem_of_app. tauto.
Qed.

(** ** The example emitter *)

Module DemoFacts.
Import Demo.

Lemma spy1_returns args : returns code args spy1.
Proof. exists 0. split; [done | constructor]. Qed.

Lemma spy2_returns args : returns code args spy2.
Proof. exists 1. split; [done | constructor]. Qed.

Lemma recruiter_returns args : returns code args recruiter.
Proof. exists 3. split; [done | repeat constructor]. Qed.

Lemma faulty_throws args : throws code args (VString "boom") faulty.
Proof. exists 2. split; [done | constructor]. Qed.

Lemma recruiter_registers this args :
  registers "Program" spy2 (code 3 this args).
Proof. constructor. Qed.

Example emit_hiring :
  emit code 1 "Program" [nodeX] hiring = Normal hiring_after.
Proof. reflexivity. Qed.

Example emit_nested :
  emit code 2 "Program" [nodeX] nested = Thrown (VString "boom") nested_after.
Proof. reflexivity. Qed.

(** Something that is not a function fails when [emit] gets to it, not when
    it is registered. *)
Example emit_not_callable :
  emit code 1 "Program" [] (register_all [("Program", spy1); ("Program", VNumber 42);
                                          ("Program", spy2)] fresh)
  = Thrown VTypeError
      (World [("Program", [spy1; VNumber 42; spy2])]
             [Call spy1 VUndefined [VUndefined; VUndefined; VUndefined]]).
Proof. reflexivity. Qed.

(** A listener that emits the event it listens to never comes to an end. *)
Example emit_echo_runs_out_of_fuel :
  emit code 3 "Program:exit" [] (on "Program:exit" echo fresh) = OutOfFuel.
Proof. reflexivity. Qed.
End DemoFacts.


(** * Main results *)

(** C1: after any sequence of registrations, [emit(e, a, b, c)] returns, and
    what it has done is to call the listeners registered for [e] (those from
    before and those of the sequence), each once, in the order of
    registration, each with exactly the arguments [a], [b], [c].  The
    listeners are functions that return and do not themselves emit. *)
Theorem emit_calls_listeners_in_registration_order
    (code : nat → value → list value → prog) (fuel : nat) (e : string)
    (regs : list (string * value)) (a b c : value) (w : world) :
  Forall (returns code [a; b; c]) (listeners_of e w ++ registered e regs) →
  ∃ w', emit code (S fuel) e [a; b; c] (register_all regs w) = Normal w' ∧
        calls w' = calls w ++
          invocations [a; b; c] (listeners_of e w ++ registered e regs).
Proof.
  intros Hall.
  destruct (Obj.get e (listeners (register_all regs w))) as [arr|] eqn:Hget.
  - pose proof (get_listeners_of _ _ _ Hget) as Harr.
    rewrite listeners_of_register_all in Harr. rewrite Harr in Hall.
    destruct (emit_returns code fuel e [a; b; c] _ arr Hget Hall)
      as (w' & added & Hrun & Hc & _).
    exists w'. by rewrite Hrun, Hc, calls_register_all, Harr.
  - assert (listeners_of e (register_all regs w) = []) as Hnil
      by (unfold listeners_of; by rewrite Hget).
    exists (register_all regs w). rewrite emit_no_listeners by done.
    rewrite listeners_of_register_all in Hnil. rewrite Hnil.
    by rewrite calls_register_all, app_nil_r.
Qed.

Lemma emit_calls_listeners_in_registration_order_witness :
  ∃ w', emit Demo.code 1 "Program" [VNumber 1; VNumber 2; VNumber 3]
          (register_all [("Program", Demo.spy1); ("Program:exit", Demo.spy1);
                         ("Program", Demo.spy2)] fresh) = Normal w' ∧
        calls w' = [Call Demo.spy1 VUndefined [VNumber 1; VNumber 2; VNumber 3];
                    Call Demo.spy2 VUndefined [VNumber 1; VNumber 2; VNumber 3]].
Proof.
  apply (emit_calls_listeners_in_registration_order Demo.code 0 "Program"
           [("Program", Demo.spy1); ("Program:exit", Demo.spy1);
            ("Program", Demo.spy2)] (VNumber 1) (VNumber 2) (VNumber 3) fresh).
  repeat constructor; [apply DemoFacts.spy1_returns | apply DemoFacts.spy2_returns].
Defined.

(** C2: when a listener throws, [emit] ends by throwing the same error, and
    the listeners registered after it for that event are not called: the
    calls made are those of the listeners before it, and its own. *)
Theorem emit_stops_at_throwing_listener
    (code : nat → value → list value → prog) (fuel : nat) (e : string)
    (args : list value) (w : world) (pre post : list value) (f v : value) :
  Obj.get e (listeners w) = Some (pre ++ f :: post) →
  Forall (returns code (bind3 args)) pre →
  throws code (bind3 args) v f →
  ∃ w', emit code (S fuel) e args w = Thrown v w' ∧
        new_calls w w' = invocations (bind3 args) (pre ++ [f]) ∧
        length (new_calls w w') = S (length pre).
Proof.
  intros Hget Hpre Hf.
  destruct (emit_throws code fuel e args w pre f post v Hget Hpre Hf)
    as (w' & Hrun & Hc & _).
  exists w'. rewrite (new_calls_app _ _ _ Hc). split_and!; [done..|].
  unfold invocations. rewrite length_fmap, length_app. simpl. lia.
Qed.

Lemma emit_stops_at_throwing_listener_witness :
  ∃ w', emit Demo.code 1 "Program" [Demo.nodeX]
          (register_all [("Program", Demo.spy1); ("Program", Demo.faulty);
                         ("Program", Demo.spy2)] fresh)
        = Thrown (VString "boom") w' ∧
        new_calls (register_all [("Program", Demo.spy1); ("Program", Demo.faulty);
                                 ("Program", Demo.spy2)] fresh) w'
        = invocations (bind3 [Demo.nodeX]) ([Demo.spy1] ++ [Demo.faulty]) ∧
        length (new_calls (register_all [("Program", Demo.spy1); ("Program", Demo.faulty);
                                 ("Program", Demo.spy2)] fresh) w') = 2.
Proof.
  apply (emit_stops_at_throwing_listener Demo.code 0 "Program" [Demo.nodeX]
           (register_all [("Program", Demo.spy1); ("Program", Demo.faulty);
                          ("Program", Demo.spy2)] fresh)
           [Demo.spy1] [Demo.spy2] Demo.faulty (VString "boom")).
  - reflexivity.
  - repeat constructor. apply DemoFacts.spy1_returns.
  - apply DemoFacts.faulty_throws.
Defined.

(** C3: for a name with no listeners, on a new emitter or later, [emit]
    returns; it throws nothing, calls nothing and leaves the state as it
    was. *)
Theorem emit_without_listeners_is_silent
    (code : nat → value → list value → prog) (fuel : nat) (e : string)
    (args : list value) (w : world) :
  listeners_of e w = [] →
  emit code (S fuel) e args w = Normal w ∧
  emit code (S fuel) e args fresh = Normal fresh.
Proof.
  intros H. split; by apply emit_no_listeners.
Qed.

Lemma emit_without_listeners_is_silent_witness :
  emit Demo.code 1 "Unregistered" [] (on "Program" Demo.spy1 fresh)
    = Normal (on "Program" Demo.spy1 fresh) ∧
  emit Demo.code 1 "Unregistered" [] fresh = Normal fresh.
Proof.
  apply (emit_without_listeners_is_silent Demo.code 0 "Unregistered" []
           (on "Program" Demo.spy1 fresh)).
  reflexivity.
Defined.

(** C5: [emit] calls every listener as many times as it is registered for
    the event; in a state reached by registering [f] twice, that is two times
    more than [f] was registered before, so exactly twice when it was not.
    The listeners are functions that return and do not themselves emit. *)
Theorem emit_calls_once_per_registration
    (code : nat → value → list value → prog) (fuel : nat) (e : string)
    (args : list value) (w : world) :
  Forall (returns code (bind3 args)) (listeners_of e w) →
  ∃ w', emit code (S fuel) e args w = Normal w' ∧
        (∀ g, times_invoked g (new_calls w w') = times_registered g e w) ∧
        (∀ f w0, w = on e f (on e f w0) →
           times_invoked f (new_calls w w') = 2 + times_registered f e w0).
Proof.
  intros Hall.
  destruct (emit_quiet code fuel e args w Hall) as (w' & Hrun & Hc & _).
  apply new_calls_app in Hc as Hnew.
  exists w'. split; [done|].
  assert (∀ g, times_invoked g (new_calls w w') = times_registered g e w) as Hcount.
  { intros g. rewrite Hnew. apply times_invoked_invocations. }
  split; [done|].
  intros f w0 ->. rewrite Hcount. unfold times_registered.
  rewrite !listeners_of_on, !decide_True by done.
  rewrite <- app_assoc, filter_app, length_app. simpl.
  rewrite !filter_cons, !decide_True by done. simpl. lia.
Qed.

Lemma emit_calls_once_per_registration_witness :
  ∃ w', emit Demo.code 1 "Program" [Demo.nodeX]
          (on "Program" Demo.spy1 (on "Program" Demo.spy1 fresh)) = Normal w' ∧
        (∀ g, times_invoked g
                (new_calls (on "Program" Demo.spy1 (on "Program" Demo.spy1 fresh)) w')
              = times_registered g "Program"
                  (on "Program" Demo.spy1 (on "Program" Demo.spy1 fresh))) ∧
        (∀ f w0, on "Program" Demo.spy1 (on "Program" Demo.spy1 fresh)
                 = on "Program" f (on "Program" f w0) →
           times_invoked f
             (new_calls (on "Program" Demo.spy1 (on "Program" Demo.spy1 fresh)) w')
           = 2 + times_registered f "Program" w0).
Proof.
  apply (emit_calls_once_per_registration Demo.code 0 "Program" [Demo.nodeX]
           (on "Program" Demo.spy1 (on "Program" Demo.spy1 fresh))).
  repeat constructor; apply DemoFacts.spy1_returns.
Defined.

(** C6: the listeners always get three arguments; where [emit] was called
    with fewer, the missing ones are [undefined].  After [on("Program", f)]
    and [on("Program", g)] on a new emitter, [emit("Program", nodeX)] calls
    [f(nodeX, undefined, undefined)] and then [g(nodeX, undefined,
    undefined)], once each, and nothing else.  The listeners are functions
    that return and do not themselves emit. *)
Theorem emit_pads_arguments_with_undefined
    (code : nat → value → list value → prog) (fuel : nat)
    (f g nodeX : value) (e : string) (args : list value) (w : world) :
  returns code [nodeX; VUndefined; VUndefined] f →
  returns code [nodeX; VUndefined; VUndefined] g →
  length args < 3 →
  Forall (returns code (bind3 args)) (listeners_of e w) →
  (∃ w', emit code (S fuel) "Program" [nodeX]
           (on "Program" g (on "Program" f fresh)) = Normal w' ∧
         calls w' = [Call f VUndefined [nodeX; VUndefined; VUndefined];
                     Call g VUndefined [nodeX; VUndefined; VUndefined]]) ∧
  (∃ w', emit code (S fuel) e args w = Normal w' ∧
         new_calls w w' =
           invocations (args ++ replicate (3 - length args) VUndefined)
             (listeners_of e w)).
Proof.
  intros Hf Hg Hlen Hall. split.
  - destruct (emit_returns code fuel "Program" [nodeX]
                (on "Program" g (on "Program" f fresh)) [f; g])
      as (w' & added & Hrun & Hc & _).
    + reflexivity.
    + by repeat constructor.
    + by exists w'.
  - destruct (emit_quiet code fuel e args w Hall) as (w' & Hrun & Hc & _).
    exists w'. split; [done|]. rewrite (new_calls_app _ _ _ Hc). f_equal.
    destruct args as [|x [|y [|z args]]]; simpl in *; try done; lia.
Qed.

Lemma emit_pads_arguments_with_undefined_witness :
  (∃ w', emit Demo.code 1 "Program" [Demo.nodeX]
           (on "Program" Demo.spy2 (on "Program" Demo.spy1 fresh)) = Normal w' ∧
         calls w' = [Call Demo.spy1 VUndefined [Demo.nodeX; VUndefined; VUndefined];
                     Call Demo.spy2 VUndefined [Demo.nodeX; VUndefined; VUndefined]]) ∧
  (∃ w', emit Demo.code 1 "Token" [Demo.nodeX; VNull]
           (on "Token" Demo.spy1 fresh) = Normal w' ∧
         new_calls (on "Token" Demo.spy1 fresh) w' =
           invocations ([Demo.nodeX; VNull] ++ replicate (3 - 2) VUndefined)
             (listeners_of "Token" (on "Token" Demo.spy1 fresh))).
Proof.
  apply (emit_pads_arguments_with_undefined Demo.code 0 Demo.spy1 Demo.spy2
           Demo.nodeX "Token" [Demo.nodeX; VNull] (on "Token" Demo.spy1 fresh)).
  - apply DemoFacts.spy1_returns.
  - apply DemoFacts.spy2_returns.
  - simpl. lia.
  - repeat constructor. apply DemoFacts.spy1_returns.
Defined.

(** C7: whatever is called on the emitter, and however often, the registry
    only grows: every key stays, at its place in creation order, and the
    array under it keeps its elements at their places, with the later
    registrations behind them. *)
Theorem registry_only_grows
    (code : nat → value → list value → prog) (w w' : world) :
  rtc (step code) w w' →
  extends (listeners w) (listeners w') ∧
  (∀ e, e ∈ Obj.names (listeners w) → e ∈ Obj.names (listeners w')) ∧
  (∀ e, ∃ added, listeners_of e w' = listeners_of e w ++ added).
Proof.
  intros Hsteps.
  assert (extends (listeners w) (listeners w')) as Hx.
  { induction Hsteps as [|w1 w2 w3 Hstep _ IH]; [done|].
    etrans; [by apply (step_extends code)|done]. }
  split; [done|]. destruct Hx as [[new Hnames] Hget]. split.
  - intros e He. rewrite Hnames, elem_of_app. by left.
  - intros e. unfold listeners_of.
    destruct (Obj.get e (listeners w)) as [arr|] eqn:E; simpl.
    + destruct (Hget _ _ E) as [added ->]. by exists added.
    + by eexists.
Qed.

Lemma registry_only_grows_witness :
  extends (listeners Demo.hiring)
          (listeners (on "Token" Demo.faulty Demo.hiring_after)) ∧
  (∀ e, e ∈ Obj.names (listeners Demo.hiring) →
        e ∈ Obj.names (listeners (on "Token" Demo.faulty Demo.hiring_after))) ∧
  (∀ e, ∃ added,
     listeners_of e (on "Token" Demo.faulty Demo.hiring_after)
     = listeners_of e Demo.hiring ++ added).
Proof.
  apply (registry_only_grows Demo.code).
  eapply rtc_l.
  - apply (step_emit Demo.code 1 "Program" [Demo.nodeX] Demo.hiring Demo.hiring_after).
    reflexivity.
  - eapply rtc_l; [apply step_on | apply rtc_refl].
Defined.

(** C8: every call of a listener that [emit] makes or causes, whatever the
    listeners do and however the call of [emit] ends, is a call without
    receiver ([this] is [undefined], not the emitter) and with exactly three
    arguments.  And when the listeners of the event do not themselves emit,
    what they are called with is the same in any two states of the emitter
    that hold the same listeners for that event. *)
Theorem listeners_are_called_without_receiver
    (code : nat → value → list value → prog) (fuel : nat) (e : string)
    (args : list value) (w w' w2 : world) :
  final (emit code (S fuel) e args w) = Some w' →
  (∃ new, calls w' = calls w ++ new ∧
          Forall (λ c, this_arg c = VUndefined ∧ length (arguments c) = 3) new) ∧
  (Forall (returns code (bind3 args)) (listeners_of e w) →
   listeners_of e w2 = listeners_of e w →
   ∃ w2', emit code (S fuel) e args w2 = Normal w2' ∧
          new_calls w2 w2' = new_calls w w').
Proof.
  intros Hfinal. split.
  - revert Hfinal.
    apply (emit_final_kept code
             (λ w1, ∃ new, calls w1 = calls w ++ new ∧
                Forall (λ c, this_arg c = VUndefined ∧ length (arguments c) = 3) new)).
    + intros e1 l1 w1 (new & Hc & Hall). exists new. by rewrite calls_on.
    + intros f args1 w1 (new & Hc & Hall).
      exists (new ++ [Call f VUndefined (bind3 args1)]). simpl. split.
      * by rewrite Hc, app_assoc.
      * apply Forall_app. split; [done|]. by repeat constructor.
    + exists []. by rewrite app_nil_r.
  - intros Hall Hsame.
    destruct (emit_quiet code fuel e args w Hall) as (w1 & Hrun & Hc & _).
    rewrite Hrun in Hfinal. simplify_eq/=.
    rewrite <- Hsame in Hall.
    destruct (emit_quiet code fuel e args w2 Hall) as (w2' & Hrun2 & Hc2 & _).
    exists w2'. split; [done|].
    by rewrite (new_calls_app _ _ _ Hc), (new_calls_app _ _ _ Hc2), Hsame.
Qed.

Lemma listeners_are_called_without_receiver_witness :
  (∃ new, calls Demo.hiring_after = calls Demo.hiring ++ new ∧
          Forall (λ c, this_arg c = VUndefined ∧ length (arguments c) = 3) new) ∧
  (∃ w2', emit Demo.code 1 "Program" [Demo.nodeX] Demo.hiring_and_more = Normal w2' ∧
          new_calls Demo.hiring_and_more w2' = new_calls Demo.hiring Demo.hiring_after).
Proof.
  pose proof (listeners_are_called_without_receiver Demo.code 0 "Program"
                [Demo.nodeX] Demo.hiring Demo.hiring_after Demo.hiring_and_more
                eq_refl) as [Hthis Hsame].
  split; [exact Hthis|]. apply Hsame.
  - repeat constructor; [apply DemoFacts.recruiter_returns | apply DemoFacts.spy1_returns].
  - reflexivity.
Defined.

(** C9: a listener that is registered for the event by one of the listeners
    called during [emit] is pushed behind the listeners that were there and
    is not called by that [emit], which calls the listeners present at its
    start and no more; the next [emit] of the event calls it with the rest.
    The listeners are functions that return and do not themselves emit. *)
Theorem listener_added_during_emit_waits_for_next
    (code : nat → value → list value → prog) (fuel : nat) (e : string)
    (args : list value) (w : world) (arr : list value) (i n : nat) (g : value) :
  Obj.get e (listeners w) = Some arr →
  Forall (returns code (bind3 args)) arr →
  arr !! i = Some (VFunction n) →
  registers e g (code n VUndefined (bind3 args)) →
  ∃ w' added,
    emit code (S fuel) e args w = Normal w' ∧
    new_calls w w' = invocations (bind3 args) arr ∧
    listeners_of e w' = arr ++ added ∧
    g ∈ added ∧
    (∀ fuel' args',
       Forall (returns code (bind3 args')) (arr ++ added) →
       ∃ w'', emit code (S fuel') e args' w' = Normal w'' ∧
              new_calls w' w'' = invocations (bind3 args') (arr ++ added)).
Proof.
  intros Hget Hall Hi Hreg.
  rewrite <- (take_drop_middle arr i (VFunction n) Hi) in Hget, Hall.
  destruct (emit_recruits code fuel e args w _ n _ g Hget Hall Hreg)
    as (w' & added & Hrun & Hc & Hget' & Hin).
  rewrite (take_drop_middle arr i (VFunction n) Hi) in Hc, Hget'.
  exists w', added. split_and!; [done|by apply new_calls_app| |done|].
  - by apply get_listeners_of.
  - intros fuel' args' Hall'.
    destruct (emit_returns code fuel' e args' w' _ Hget' Hall')
      as (w'' & added' & Hrun' & Hc' & _).
    exists w''. split; [done|]. by apply new_calls_app.
Qed.

Lemma listener_added_during_emit_waits_for_next_witness :
  ∃ w'', emit Demo.code 1 "Program" [VNull] Demo.hiring_after = Normal w'' ∧
         new_calls Demo.hiring_after w''
         = invocations (bind3 [VNull]) [Demo.recruiter; Demo.spy1; Demo.spy2].
Proof.
  destruct (listener_added_during_emit_waits_for_next Demo.code 0 "Program"
              [Demo.nodeX] Demo.hiring [Demo.recruiter; Demo.spy1] 0 3 Demo.spy2)
    as (w' & added & Hrun & _ & Hlist & _ & Hnext).
  - reflexivity.
  - repeat constructor; [apply DemoFacts.recruiter_returns | apply DemoFacts.spy1_returns].
  - reflexivity.
  - apply DemoFacts.recruiter_registers.
  - rewrite DemoFacts.emit_hiring in Hrun. injection Hrun as <-.
    apply (app_inv_head [Demo.recruiter; Demo.spy1] [Demo.spy2]) in Hlist as <-.
    apply (Hnext 0 [VNull]).
    repeat constructor;
      [apply DemoFacts.recruiter_returns | apply DemoFacts.spy1_returns | apply DemoFacts.spy2_returns].
Defined.

(** C10: in every state the emitter can reach, each key of the registry
    holds at least one listener, and so does every name that [eventNames]
    returns. *)
Theorem registered_names_have_listeners
    (code : nat → value → list value → prog) (w : world) :
  reachable code w →
  (∀ e arr, Obj.get e (listeners w) = Some arr → arr ≠ []) ∧
  (∀ e, e ∈ (eventNames w).1 → listeners_of e w ≠ []).
Proof.
  intros Hreach. destruct (reachable_well_formed code w Hreach) as [_ Hne].
  split; [done|]. intros e He. simpl in He.
  rewrite Object_keys_Permutation in He.
  apply ObjFacts.get_is_Some in He as [arr Harr].
  rewrite (get_listeners_of _ _ _ Harr). by apply (Hne e).
Qed.

Lemma registered_names_have_listeners_witness :
  (∀ e arr, Obj.get e (listeners Demo.hiring_after) = Some arr → arr ≠ []) ∧
  (∀ e, e ∈ (eventNames Demo.hiring_after).1 → listeners_of e Demo.hiring_after ≠ []).
Proof.
  apply (registered_names_have_listeners Demo.code).
  eapply rtc_r.
  - apply (reachable_register_all Demo.code
             [("Program", Demo.recruiter); ("Program", Demo.spy1)] fresh).
    apply rtc_refl.
  - apply (step_emit Demo.code 1 "Program" [Demo.nodeX]). reflexivity.
Defined.

(** C4, as the code has it: [eventNames()] leaves the state as it is and
    returns, each once, the names that have at least one listener; the names
    that are array indices come first, in ascending numeric order, and the
    other names follow in the order in which they were first registered.
    When no name is an array index the result is in first-registration
    order. *)
Theorem eventNames_lists_registered_names
    (code : nat → value → list value → prog) (w : world)
    (regs : list (string * value)) :
  reachable code w →
  (eventNames w).2 = w ∧
  NoDup (eventNames w).1 ∧
  (∀ e, e ∈ (eventNames w).1 ↔ listeners_of e w ≠ []) ∧
  (∃ idx, (eventNames w).1 =
            idx ++ filter (λ k, ¬ is_array_index k) (Obj.names (listeners w)) ∧
          idx ≡ₚ filter is_array_index (Obj.names (listeners w)) ∧
          StronglySorted index_le idx) ∧
  ((∀ e, e ∈ Obj.names (listeners w) → ¬ is_array_index e) →
   (eventNames w).1 = Obj.names (listeners w)) ∧
  Obj.names (listeners (register_all regs fresh)) = first_occurrences regs.*1 ∧
  (∀ e, e ∈ (eventNames (register_all regs fresh)).1 ↔ e ∈ regs.*1).
Proof.
  intros Hreach. destruct (reachable_well_formed code w Hreach) as [Hnd Hne].
  assert (Obj.names (listeners (register_all regs fresh)) = first_occurrences regs.*1)
    as Hnames.
  { rewrite names_register_all. simpl.
    induction (first_occurrences regs.*1) as [|x l IH]; [done|].
    rewrite filter_cons, decide_True by apply not_elem_of_nil. by f_equal. }
  split_and!.
  - done.
  - simpl. by rewrite Object_keys_Permutation.
  - intros e. simpl. rewrite Object_keys_Permutation, <- ObjFacts.get_is_Some.
    unfold listeners_of. split.
    + intros [arr Harr]. rewrite Harr. simpl. by apply (Hne e).
    + destruct (Obj.get e (listeners w)); [eauto | done].
  - exists (merge_sort index_le (filter is_array_index (Obj.names (listeners w)))).
    split_and!; [done|apply merge_sort_Permutation|].
    apply StronglySorted_merge_sort; apply _.
  - apply Object_keys_no_index.
  - done.
  - intros e. simpl. rewrite Object_keys_Permutation, Hnames.
    clear. induction regs.*1 as [|x l IH]; simpl; [done|].
    rewrite !elem_of_cons, list_elem_of_filter, IH.
    destruct (decide (e = x)); tauto.
Qed.

Lemma eventNames_lists_registered_names_witness :
  (eventNames (register_all [("y", Demo.spy1); ("x", Demo.spy2); ("y", Demo.spy2)] fresh)).1
  = ["y"; "x"].
Proof.
  pose proof (eventNames_lists_registered_names Demo.code
                (register_all [("y", Demo.spy1); ("x", Demo.spy2); ("y", Demo.spy2)] fresh)
                [("y", Demo.spy1); ("x", Demo.spy2); ("y", Demo.spy2)]
                (reachable_register_all Demo.code _ fresh (rtc_refl _ _)))
    as (_ & _ & _ & _ & Horder & Hnames & _).
  rewrite Horder, Hnames; [reflexivity|].
  rewrite Hnames. intros e He [n Hn].
  repeat (apply elem_of_cons in He as [->|He]; [discriminate Hn|]).
  by apply elem_of_nil in He.
Defined.

(** C4 as stated fails: after registering for "1" and then for "0",
    [eventNames()] returns "0" before "1". *)
Lemma eventNames_not_in_registration_order :
  (eventNames (register_all [("1", Demo.spy1); ("0", Demo.spy2)] fresh)).1 = ["0"; "1"] ∧
  first_occurrences [("1", Demo.spy1); ("0", Demo.spy2)].*1 = ["1"; "0"] ∧
  (eventNames (register_all [("1", Demo.spy1); ("0", Demo.spy2)] fresh)).1
  ≠ first_occurrences [("1", Demo.spy1); ("0", Demo.spy2)].*1.
Proof. split_and!; [reflexivity | reflexivity | discriminate]. Qed.

(** * Further properties of the emitter *)

(** ** Registration *)

Lemma has_on e' e l w :
  Obj.has e' (listeners (on e l w)) =
    if decide (e' = e) then true else Obj.has e' (listeners w).
Proof. unfold Obj.has. rewrite get_on. by case_decide. Qed.

Lemma extends_listeners_of r r' w w' e :
  listeners w = r → listeners w' = r' → extends r r' →
  ∃ added, listeners_of e w' = listeners_of e w ++ added.
Proof.
  intros <- <- [_ Hget]. unfold listeners_of.
  destruct (Obj.get e (listeners w)) as [arr|] eqn:E; simpl.
  - destruct (Hget _ _ E) as [added ->]. by exists added.
  - by eexists.
Qed.

(** X1: [on(e, l)] puts [l] behind the listeners that [e] has, leaves the
    listeners of every other name as they are, and calls nothing.  It takes
    any value as listener. *)
Theorem on_appends_to_its_event_only
    (e e' : string) (l : value) (w : world) :
  listeners_of e (on e l w) = listeners_of e w ++ [l] ∧
  (e' ≠ e → listeners_of e' (on e l w) = listeners_of e' w) ∧
  calls (on e l w) = calls w.
Proof.
  split_and!.
  - by rewrite listeners_of_on, decide_True.
  - intros Hne. by rewrite listeners_of_on, decide_False.
  - apply calls_on.
Qed.

Lemma on_appends_to_its_event_only_witness :
  listeners_of "Program" (on "Program" (VNumber 42) Demo.hiring)
  = listeners_of "Program" Demo.hiring ++ [VNumber 42] ∧
  listeners_of "Token" (on "Program" (VNumber 42) Demo.hiring)
  = listeners_of "Token" Demo.hiring.
Proof.
  pose proof (on_appends_to_its_event_only "Program" "Token" (VNumber 42) Demo.hiring)
    as (Hsame & Hother & _).
  split; [exact Hsame | apply Hother; discriminate].
Defined.

(** X2: after [on(e, l)] the event names are those from before and [e]; when
    [e] was among them already, [eventNames()] returns the very same
    sequence. *)
Theorem eventNames_after_on (e : string) (l : value) (w : world) :
  (∀ e', e' ∈ (eventNames (on e l w)).1 ↔ e' = e ∨ e' ∈ (eventNames w).1) ∧
  (e ∈ (eventNames w).1 → (eventNames (on e l w)).1 = (eventNames w).1).
Proof.
  split.
  - intros e'. simpl. rewrite !Object_keys_Permutation, names_on.
    destruct (Obj.has e (listeners w)) eqn:Hhas.
    + apply ObjFacts.has_true in Hhas. split; [tauto|]. by intros [->|?].
    + rewrite elem_of_app, list_elem_of_singleton. tauto.
  - simpl. intros Hin. rewrite Object_keys_Permutation in Hin.
    apply ObjFacts.has_true in Hin. unfold Object_keys.
    by rewrite names_on, Hin.
Qed.

Lemma eventNames_after_on_witness :
  (eventNames (on "Program" Demo.faulty Demo.hiring)).1 = (eventNames Demo.hiring).1.
Proof.
  apply (eventNames_after_on "Program" Demo.faulty Demo.hiring).
  simpl. apply list_elem_of_In. simpl. by left.
Defined.

(** X3: two registrations under different names can be made in either order:
    every name ends up with the same listeners, and [eventNames()] returns
    the same names. *)
Theorem registrations_for_different_names_commute
    (e1 e2 : string) (l1 l2 : value) (w : world) :
  e1 ≠ e2 →
  (∀ e, listeners_of e (on e1 l1 (on e2 l2 w))
        = listeners_of e (on e2 l2 (on e1 l1 w))) ∧
  (eventNames (on e1 l1 (on e2 l2 w))).1 ≡ₚ (eventNames (on e2 l2 (on e1 l1 w))).1.
Proof.
  intros Hne. split.
  - intros e. rewrite !listeners_of_on.
    repeat case_decide; simplify_eq; done.
  - simpl. rewrite !Object_keys_Permutation, !names_on, !has_on.
    rewrite (decide_False (P := e1 = e2)), (decide_False (P := e2 = e1)) by done.
    destruct (Obj.has e1 (listeners w)), (Obj.has e2 (listeners w)); try done.
    rewrite <- !app_assoc. apply Permutation_app_head. simpl. apply perm_swap.
Qed.

Lemma registrations_for_different_names_commute_witness :
  (∀ e, listeners_of e (on "a" Demo.spy1 (on "b" Demo.spy2 Demo.hiring))
        = listeners_of e (on "b" Demo.spy2 (on "a" Demo.spy1 Demo.hiring))) ∧
  (eventNames (on "a" Demo.spy1 (on "b" Demo.spy2 Demo.hiring))).1
  ≡ₚ (eventNames (on "b" Demo.spy2 (on "a" Demo.spy1 Demo.hiring))).1.
Proof.
  apply (registrations_for_different_names_commute "a" "b" Demo.spy1 Demo.spy2 Demo.hiring).
  discriminate.
Defined.

(** ** Listeners that fail *)

Lemma invoke_not_callable code emit_rec x this args w :
  is_callable x = false → invoke code emit_rec x this args w = Thrown VTypeError w.
Proof. by destruct x. Qed.

(** X4: a listener that is not a function is accepted by [on] and fails only
    when [emit] gets to it: the listeners registered before it are called,
    then [emit] throws a [TypeError] and calls none of the later ones. *)
Theorem emit_throws_TypeError_at_non_function
    (code : nat → value → list value → prog) (fuel : nat) (e : string)
    (args : list value) (w : world) (pre post : list value) (x : value) :
  Obj.get e (listeners w) = Some (pre ++ x :: post) →
  Forall (returns code (bind3 args)) pre →
  is_callable x = false →
  ∃ w', emit code (S fuel) e args w = Thrown VTypeError w' ∧
        new_calls w w' = invocations (bind3 args) pre ∧
        (∃ added, listeners_of e w' = pre ++ x :: post ++ added).
Proof.
  intros Hget Hpre Hx. rewrite emit_S, Hget.
  rewrite length_app. simpl length. rewrite forEach_split.
  destruct (forEach_returns code (emit code fuel) (bind3 args) e pre [] (x :: post) w)
    as (w1 & added & Hrun & Hc1 & Hget1 & Hx1); [done..|].
  simpl in Hrun, Hget1. rewrite Hrun. cbn [forEach_from Nat.add].
  rewrite Hget1. cbn [mbind option_bind].
  rewrite (list_lookup_middle pre (post ++ added) x (length pre) eq_refl).
  rewrite invoke_not_callable by done.
  exists w1. split_and!; [done|by apply new_calls_app|].
  exists added. by rewrite (get_listeners_of _ _ _ Hget1).
Qed.

Lemma emit_throws_TypeError_at_non_function_witness :
  ∃ w', emit Demo.code 1 "Program" [Demo.nodeX]
          (on "Program" Demo.spy2 (on "Program" (VString "oops") Demo.hiring))
        = Thrown VTypeError w' ∧
        new_calls (on "Program" Demo.spy2 (on "Program" (VString "oops") Demo.hiring)) w'
        = invocations (bind3 [Demo.nodeX]) [Demo.recruiter; Demo.spy1] ∧
        (∃ added, listeners_of "Program" w'
                  = [Demo.recruiter; Demo.spy1] ++ VString "oops" :: [Demo.spy2] ++ added).
Proof.
  apply (emit_throws_TypeError_at_non_function Demo.code 0 "Program" [Demo.nodeX]
           (on "Program" Demo.spy2 (on "Program" (VString "oops") Demo.hiring))
           [Demo.recruiter; Demo.spy1] [Demo.spy2] (VString "oops")).
  - reflexivity.
  - repeat constructor;
      [apply DemoFacts.recruiter_returns | apply DemoFacts.spy1_returns].
  - reflexivity.
Defined.

(** X5: [emit] looks at its first three arguments only, and an argument that
    is missing is the same as [undefined] given: whatever the listeners do,
    the call has the outcome of the call with exactly those three. *)
Theorem emit_uses_three_arguments
    (code : nat → value → list value → prog) (fuel : nat) (e : string)
    (args : list value) (w : world) :
  emit code fuel e args w =
    emit code fuel e (take 3 (args ++ [VUndefined; VUndefined; VUndefined])) w.
Proof.
  destruct fuel as [|fuel]; [done|]. rewrite !emit_S.
  assert (bind3 (take 3 (args ++ [VUndefined; VUndefined; VUndefined])) = bind3 args)
    as -> by (by destruct args as [|a [|b [|c args]]]).
  done.
Qed.

Lemma exec_registers_any emit_rec e g p r :
  registers e g p → finishes p r →
  ∀ w, ∃ w' added, exec emit_rec p w = ended r w' ∧ calls w' = calls w ∧
                   listeners_of e w' = listeners_of e w ++ added ∧ g ∈ added.
Proof.
  induction 1 as [k|e' l k _ IH|k _ IH]; intros Hfin w;
    inversion Hfin as [| |e1 l1 k1 r1 Hk|k1 r1 Hk]; subst; simpl.
  - destruct (exec_finishes emit_rec k r Hk (on e g w)) as (w' & Hrun & Hc & Hx).
    destruct (extends_listeners_of _ _ (on e g w) w' e eq_refl eq_refl Hx)
      as [more Hmore].
    rewrite listeners_of_on, decide_True in Hmore by done.
    exists w', ([g] ++ more). split_and!; [done|by rewrite Hc, calls_on| |].
    + by rewrite Hmore, <- app_assoc.
    + rewrite elem_of_app, list_elem_of_singleton. tauto.
  - destruct (extends_listeners_of _ _ w (on e' l w) e eq_refl eq_refl
                (on_extends e' l w)) as [a1 Ha1].
    destruct (IH Hk (on e' l w)) as (w' & a2 & Hrun & Hc & Hl & Hin).
    exists w', (a1 ++ a2). split_and!; [done|by rewrite Hc, calls_on| |].
    + by rewrite Hl, Ha1, <- app_assoc.
    + rewrite elem_of_app. tauto.
  - by apply IH.
Qed.

(** X6: what a listener did before it threw is not undone.  When a listener
    registers [g] under some name and then throws, [emit] throws the error,
    and [g] is registered under that name afterwards. *)
Theorem registration_before_throw_stays
    (code : nat → value → list value → prog) (fuel : nat) (e e' : string)
    (args : list value) (w : world) (pre post : list value) (n : nat)
    (g v : value) :
  Obj.get e (listeners w) = Some (pre ++ VFunction n :: post) →
  Forall (returns code (bind3 args)) pre →
  finishes (code n VUndefined (bind3 args)) (Some v) →
  registers e' g (code n VUndefined (bind3 args)) →
  ∃ w' added, emit code (S fuel) e args w = Thrown v w' ∧
              listeners_of e' w' = listeners_of e' w ++ added ∧ g ∈ added.
Proof.
  intros Hget Hpre Hfin Hreg. rewrite emit_S, Hget.
  rewrite length_app. simpl length. rewrite forEach_split.
  destruct (forEach_returns code (emit code fuel) (bind3 args) e pre []
              (VFunction n :: post) w)
    as (w1 & added1 & Hrun & Hc1 & Hget1 & Hx1); [done..|].
  simpl in Hrun, Hget1. rewrite Hrun. cbn [forEach_from Nat.add].
  rewrite Hget1. cbn [mbind option_bind].
  rewrite (list_lookup_middle pre (post ++ added1) (VFunction n) (length pre) eq_refl).
  rewrite invoke_function.
  destruct (exec_registers_any (emit code fuel) e' g _ (Some v) Hreg Hfin
              (record_call (Call (VFunction n) VUndefined (bind3 args)) w1))
    as (w' & added2 & Hrun2 & _ & Hl & Hin).
  rewrite Hrun2. simpl.
  destruct (extends_listeners_of _ _ w w1 e' eq_refl eq_refl Hx1) as [a1 Ha1].
  exists w', (a1 ++ added2). split_and!; [done| |].
  - rewrite Hl. unfold listeners_of at 1. simpl. fold (listeners_of e' w1).
    by rewrite Ha1, <- app_assoc.
  - rewrite elem_of_app. tauto.
Qed.

Lemma registration_before_throw_stays_witness :
  ∃ w' added, emit Demo2.code 1 "Program" [] Demo2.sabotaged
              = Thrown (VString "late") w' ∧
              listeners_of "Token" w' = listeners_of "Token" Demo2.sabotaged ++ added ∧
              Demo.spy1 ∈ added.
Proof.
  apply (registration_before_throw_stays Demo2.code 0 "Program" "Token" []
           Demo2.sabotaged [Demo.spy1] [Demo.spy2] 5 Demo.spy1 (VString "late")).
  - reflexivity.
  - repeat constructor. exists 0. split; [done | constructor].
  - repeat constructor.
  - constructor.
Defined.

(** ** [emit] itself does not touch the registry *)

Lemma get_elem_of {V} k (o : object V) v : Obj.get k o = Some v → (k, v) ∈ o.
Proof.
  induction o as [|[k' v'] o IH]; simpl; [done|].
  case_decide as Hk; [intros [= ->]; subst; by left | intros Hget; right; by apply IH].
Qed.

Section Inert.
Variable code : nat → value → list value → prog.
Variable R : object (list value).
Hypothesis R_inert : inert_listeners code R.

Lemma exec_inert emit_rec :
  (∀ e args w, listeners w = R → kept (λ w', listeners w' = R) (emit_rec e args w)) →
  ∀ p, inert p →
  ∀ w, listeners w = R → kept (λ w', listeners w' = R) (exec emit_rec p w).
Proof.
  intros Hrec p Hp. induction Hp as [|v|e args k _ IH|k _ IH]; intros w Hw; simpl.
  - done.
  - done.
  - specialize (Hrec e args w Hw). unfold kept in Hrec.
    destruct (emit_rec e args w) as [w'|v w'|]; simpl in Hrec; [by apply IH..|done].
  - by apply IH.
Qed.

Lemma forEach_inert cb e :
  (∀ x w arr k, listeners w = R → Obj.get e R = Some arr → arr !! k = Some x →
                kept (λ w', listeners w' = R) (cb x w)) →
  ∀ n k w, listeners w = R → kept (λ w', listeners w' = R) (forEach_from cb e k n w).
Proof.
  intros Hcb n. induction n as [|n IH]; intros k w Hw; simpl; [done|].
  rewrite Hw. destruct (Obj.get e R) as [arr|] eqn:Hget; simpl; [|by apply IH].
  destruct (arr !! k) as [x|] eqn:Hk; [|by apply IH].
  specialize (Hcb x w arr k Hw eq_refl Hk). unfold kept in Hcb.
  destruct (cb x w) as [w'|v w'|]; simpl in Hcb; [by apply IH|done..].
Qed.

Lemma emit_inert fuel :
  ∀ e args w, listeners w = R → kept (λ w', listeners w' = R) (emit code fuel e args w).
Proof.
  induction fuel as [|fuel IH]; intros e args w Hw; [done|].
  rewrite emit_S. destruct (Obj.get e (listeners w)) as [arr0|]; [|done].
  apply forEach_inert; [|done].
  intros x w1 arr k Hw1 Hget Hk.
  destruct x; try done. rewrite invoke_function.
  apply exec_inert; [done| |done].
  apply get_elem_of in Hget. unfold inert_listeners in R_inert.
  rewrite Forall_forall in R_inert. specialize (R_inert _ Hget). simpl in R_inert.
  rewrite Forall_forall in R_inert.
  eapply R_inert; [|done]. by eapply list_elem_of_lookup_2.
Qed.
End Inert.

(** X7: [emit] changes the registry only through the registrations that the
    listeners make.  When no function in the registry ever calls [on], then
    whichever event is emitted, however the listeners emit in turn, and
    however the call ends, the registry is afterwards what it was, and
    [eventNames()] returns what it returned. *)
Theorem emit_leaves_registry_to_listeners
    (code : nat → value → list value → prog) (fuel : nat) (e : string)
    (args : list value) (w w' : world) :
  inert_listeners code (listeners w) →
  final (emit code fuel e args w) = Some w' →
  listeners w' = listeners w ∧ (eventNames w').1 = (eventNames w).1.
Proof.
  intros Hinert Hfinal.
  pose proof (emit_inert code (listeners w) Hinert fuel e args w eq_refl) as H.
  unfold kept in H. rewrite Hfinal in H. split; [done|]. simpl. by rewrite H.
Qed.

Lemma emit_leaves_registry_to_listeners_witness :
  listeners Demo.nested_after = listeners Demo.nested ∧
  (eventNames Demo.nested_after).1 = (eventNames Demo.nested).1.
Proof.
  apply (emit_leaves_registry_to_listeners Demo.code 2 "Program" [Demo.nodeX]
           Demo.nested Demo.nested_after).
  - repeat constructor; simpl; intros n [= <-] this args; repeat constructor;
      intros [v|]; constructor.
  - reflexivity.
Defined.

(** ** Listeners that emit *)

Section Grows.
Variable code : nat → value → list value → prog.

Lemma emit_final_grows fuel e args w w' :
  final (emit code fuel e args w) = Some w' →
  (∃ new, calls w' = calls w ++ new) ∧ extends (listeners w) (listeners w').
Proof.
  apply (emit_final_kept code
           (λ w1, (∃ new, calls w1 = calls w ++ new) ∧
                  extends (listeners w) (listeners w1))).
  - intros e1 l1 w1 [Hc Hx]. split; [by rewrite calls_on|].
    etrans; [done | apply on_extends].
  - intros f a w1 [[new Hc] Hx]. split; [|done].
    eexists. simpl. by rewrite Hc, <- app_assoc.
  - split; [|done]. exists []. by rewrite app_nil_r.
Qed.

Lemma exec_final_grows fuel p w w' :
  final (exec (emit code fuel) p w) = Some w' →
  (∃ new, calls w' = calls w ++ new) ∧ extends (listeners w) (listeners w').
Proof.
  intros Hfinal.
  assert (kept (λ w1, (∃ new, calls w1 = calls w ++ new) ∧
                      extends (listeners w) (listeners w1))
               (exec (emit code fuel) p w)) as H.
  { apply exec_kept.
    - intros e l w1 [Hc Hx]. split; [by rewrite calls_on|].
      etrans; [done | apply on_extends].
    - intros e args w1 [[new Hc] Hx]. unfold kept.
      destruct (final (emit code fuel e args w1)) as [w2|] eqn:E; [|done].
      destruct (emit_final_grows fuel e args w1 w2 E) as [[new2 Hc2] Hx2].
      split; [|by etrans]. exists (new ++ new2). by rewrite Hc2, Hc, app_assoc.
    - split; [|done]. exists []. by rewrite app_nil_r. }
  unfold kept in H. by rewrite Hfinal in H.
Qed.

Lemma forEach_calls_snapshot fuel args e todo : ∀ before after w w',
  Obj.get e (listeners w) = Some (before ++ todo ++ after) →
  forEach_from (λ listener, invoke code (emit code fuel) listener VUndefined (bind3 args))
    e (length before) (length todo) w = Normal w' →
  ∃ new, calls w' = calls w ++ new ∧
         invocations (bind3 args) todo `sublist_of` new ∧
         Forall (λ f, is_callable f = true) todo ∧
         extends (listeners w) (listeners w').
Proof.
  induction todo as [|f todo IH]; intros before after w w' Hget Hrun.
  - simpl in Hrun. injection Hrun as <-. exists []. rewrite app_nil_r.
    split_and!; [done|apply sublist_nil|done|done].
  - simpl in Hrun. rewrite Hget in Hrun. simpl in Hrun.
    rewrite (list_lookup_middle before (todo ++ after) f (length before) eq_refl)
      in Hrun.
    destruct (is_callable f) eqn:Hf;
      [|by rewrite invoke_not_callable in Hrun].
    destruct f as [| | | | | |n|]; try done. rewrite invoke_function in Hrun.
    destruct (exec (emit code fuel) _ _) as [w1| |] eqn:Hexec; try done.
    destruct (exec_final_grows fuel _ _ w1 (f_equal final Hexec))
      as [[new1 Hc1] Hx1]. simpl in Hc1, Hx1.
    destruct Hx1 as [Hn1 Hg1]. destruct (Hg1 _ _ Hget) as [added1 Hget1].
    destruct (IH (before ++ [VFunction n]) (after ++ added1) w1 w')
      as (new2 & Hc2 & Hsub & Hall & Hx2).
    { rewrite Hget1. f_equal. by repeat (rewrite <- app_assoc; simpl). }
    { rewrite length_app. simpl.
      by replace (length before + 1) with (S (length before)) by lia. }
    exists ([Call (VFunction n) VUndefined (bind3 args)] ++ new1 ++ new2).
    split_and!.
    + rewrite Hc2, Hc1. by repeat (rewrite <- app_assoc; simpl).
    + simpl. apply sublist_skip. by apply sublist_inserts_l.
    + by constructor.
    + etrans; [|done]. by split.
Qed.
End Grows.

(** X8: whatever the listeners do, emitting in their turn or registering,
    an [emit] that returns has called every listener that the event had when
    it began, in the order of registration; all of them are functions, and
    they are still registered, at their places, afterwards. *)
Theorem emit_that_returns_called_every_listener
    (code : nat → value → list value → prog) (fuel : nat) (e : string)
    (args : list value) (w w' : world) (arr : list value) :
  Obj.get e (listeners w) = Some arr →
  emit code (S fuel) e args w = Normal w' →
  invocations (bind3 args) arr `sublist_of` new_calls w w' ∧
  Forall (λ f, is_callable f = true) arr ∧
  (∃ added, listeners_of e w' = arr ++ added).
Proof.
  intros Hget Hrun. rewrite emit_S, Hget in Hrun.
  destruct (forEach_calls_snapshot code fuel args e arr [] [] w w')
    as (new & Hc & Hsub & Hall & Hx); [by rewrite app_nil_r|done|].
  rewrite (new_calls_app _ _ _ Hc). split_and!; [done..|].
  destruct (extends_listeners_of _ _ w w' e eq_refl eq_refl Hx) as [added Hadd].
  exists added. by rewrite Hadd, (get_listeners_of _ _ _ Hget).
Qed.

Lemma emit_that_returns_called_every_listener_witness :
  invocations (bind3 [Demo.nodeX]) [Demo.echo; Demo.spy2]
    `sublist_of` new_calls Demo2.relay Demo2.relay_after ∧
  Forall (λ f, is_callable f = true) [Demo.echo; Demo.spy2] ∧
  (∃ added, listeners_of "Program" Demo2.relay_after = [Demo.echo; Demo.spy2] ++ added).
Proof.
  apply (emit_that_returns_called_every_listener Demo2.code 1 "Program" [Demo.nodeX]
           Demo2.relay Demo2.relay_after [Demo.echo; Demo.spy2]);
    reflexivity.
Defined.



(** ** The frozen object *)

Lemma freeze_frozen {V} (o : js_object V) : frozen (Object_freeze o).
Proof.
  split; [done|]. simpl. apply Forall_fmap, Forall_true. by intros [k p].
Qed.

Lemma frozen_after {V} `{EqDecision V} (o : js_object V) (m : mutation V) :
  frozen o → after o m = o.
Proof.
  intros [Hext Hall]. unfold after.
  assert (∀ k p, Obj.get k (own o) = Some p →
                 writable p = false ∧ configurable p = false) as Hprop.
  { intros k p Hget. apply get_elem_of in Hget.
    rewrite Forall_forall in Hall. apply (Hall _ Hget). }
  destruct m as [k v|k|k p]; simpl.
  - destruct (Obj.get k (own o)) as [cur|] eqn:Hget.
    + destruct (Hprop _ _ Hget) as [-> _]. done.
    + by rewrite Hext.
  - destruct (Obj.get k (own o)) as [cur|] eqn:Hget; [|done].
    destruct (Hprop _ _ Hget) as [_ ->]. done.
  - destruct (Obj.get k (own o)) as [cur|] eqn:Hget.
    + destruct (Hprop _ _ Hget) as [-> ->]. by repeat case_bool_decide.
    + by rewrite Hext.
Qed.

(** An object literal that is not frozen can be changed. *)
Example unfrozen_literal_can_be_changed :
  p_value <$> Obj.get "emit"
    (own (after (literal [("on", Method_on); ("emit", Method_emit)])
                (Assign "emit" Method_on)))
  = Some Method_on.
Proof. reflexivity. Qed.

(** X10: the object that the factory returns is frozen.  Whatever its holders
    try on it, assignments, deletions and property definitions, for its three
    names or for others, it stays as it was made: its properties are "on",
    "emit" and "eventNames", and each holds the method it held. *)
Theorem SafeEmitter_cannot_be_changed (ms : list (mutation method)) :
  foldl after SafeEmitter ms = SafeEmitter ∧
  Obj.names (own (foldl after SafeEmitter ms)) = ["on"; "emit"; "eventNames"] ∧
  p_value <$> Obj.get "on" (own (foldl after SafeEmitter ms)) = Some Method_on ∧
  p_value <$> Obj.get "emit" (own (foldl after SafeEmitter ms)) = Some Method_emit ∧
  p_value <$> Obj.get "eventNames" (own (foldl after SafeEmitter ms))
  = Some Method_eventNames.
Proof.
  assert (foldl after SafeEmitter ms = SafeEmitter) as ->; [|done].
  induction ms as [|m ms IH] using rev_ind; [done|].
  rewrite foldl_app. simpl. rewrite IH. apply frozen_after, freeze_frozen.
Qed.
